(** * SESyncProblem: the rank-restricted relaxation solved by SE-Sync

    A shallow embedding of [C++/SE-Sync/include/SESync/SESyncProblem.h].

    Dense and sparse Eigen matrices of [double] are read in exact
    arithmetic: they are MathComp matrices over an arbitrary real field [R].
    The external factorizations (Cholmod, SPQR, Eigen's incomplete Cholesky)
    are objects with a [solve] member; they are modelled by records that
    carry that member, and the facts the class relies on are stated as
    contracts where a theorem needs them.

    Values of type [unsigned int] that give the shape of a matrix (n, m, d,
    r) are naturals; the one place where the header computes with an
    [unsigned int], the column counter of [Pi_product], keeps its 32-bit
    wrap-around. *)

From Stdlib Require Import ZArith Lia.
From HB Require Import structures.
From mathcomp Require Import boot order algebra.

Set Implicit Arguments.
Unset Strict Implicit.
Unset Printing Implicit Defensive.

Import GRing.Theory Num.Theory.
Local Open Scope ring_scope.
Delimit Scope Z_scope with ZZ.

(** ** Machine integers *)

(** [unsigned int] is 32 bits wide; [c++] wraps. *)
Definition UINT_MODULUS : Z := (2 ^ 32)%ZZ.

Definition uint_incr (c : Z) : Z := ((c + 1) mod UINT_MODULUS)%ZZ.

Definition is_uint (c : Z) : Prop := (0 <= c < UINT_MODULUS)%ZZ.

Module SESync.

(** ** Types of SESync_types.h and StiefelProduct.h *)

(** Modelled from the spec: the enumeration [Formulation] of
    SESync_types.h, which is not among the sources. The header names
    [Simplified] (the translation-implicit formulation, the constructor's
    default); the spec gives the two choices {implicit, explicit}. *)
Inductive Formulation : Set := Simplified | Explicit.

(** Modelled from the spec: the enumeration [Preconditioner] of
    SESync_types.h. The header names [IncompleteCholesky]; the spec gives
    the choices {none, Jacobi, incomplete-factorization}. *)
Inductive Preconditioner : Set :=
  NoPreconditioner | Jacobi | IncompleteCholesky.

(** Modelled from the spec: the class [StiefelProduct] of StiefelProduct.h,
    the product of [SP_n] Stiefel factors, each the set of [SP_p] x [SP_k]
    matrices with orthonormal columns. *)
Record StiefelProduct : Type := mkStiefel {
  SP_k : nat;
  SP_n : nat;
  SP_p : nat
}.

Section Problem.

Variable R : realFieldType.

(** ** Eigen types *)

(** An Eigen matrix whose shape the header does not fix. *)
Record SparseMatrix : Type := mkSparse {
  sp_rows : nat;
  sp_cols : nat;
  sp_mx :> 'M[R]_(sp_rows, sp_cols)
}.

Definition empty_matrix : SparseMatrix := @mkSparse 0 0 0.

(** [Eigen::CholmodDecomposition<SparseMatrix>]: [solve] accepts a
    right-hand side with any number of columns. *)
Record SparseCholeskyFactorization (q : nat) : Type := mkCholesky {
  chol_solve : forall k : nat, 'M[R]_(q, k) -> 'M[R]_(q, k)
}.

(** [Eigen::SPQR<SparseMatrix>] for a matrix with [rows] rows and [cols]
    columns: [solve] accepts one column vector. *)
Record SparseQRFactorization (rows cols : nat) : Type := mkQR {
  qr_solve : 'cV[R]_rows -> 'cV[R]_cols
}.

(** [Eigen::IncompleteCholesky<double>]. *)
Record IncompleteCholeskyFactorization (q : nat) : Type := mkIChol {
  ichol_solve : forall k : nat, 'M[R]_(q, k) -> 'M[R]_(q, k)
}.

(** ** The class [SESyncProblem]: its data members, in declaration order *)

Record SESyncProblem : Type := mkProblem {
  form : Formulation;
  n : nat;
  m : nat;
  d : nat;
  r : nat;
  A : 'M[R]_(n, m);
  B1 : SparseMatrix;
  B2 : SparseMatrix;
  B3 : SparseMatrix;
  M : SparseMatrix;
  LGrho : 'M[R]_(n * d, n * d);
  Ared_SqrtOmega : 'M[R]_(n.-1, m);
  SqrtOmega_AredT : 'M[R]_(m, n.-1);
  SqrtOmega_T : 'M[R]_(m, n * d);
  TT_SqrtOmega : 'M[R]_(n * d, m);
  L : SparseCholeskyFactorization n.-1;
  QR : option (SparseQRFactorization m n.-1);
  use_Cholesky : bool;
  preconditioner : Preconditioner;
  JacobiPrecon : SparseMatrix;
  iChol : option (IncompleteCholeskyFactorization (n * d));
  SP : StiefelProduct
}.

(** The destructor frees [QR] and [iChol] when they are not null; the
    embedding has no heap, so it has no counterpart here. *)

(** *** Constructors *)

(** [SESyncProblem() {}]: n, m, d and r take their default member
    initializers (0), both pointers are null, the Eigen matrices are empty.
    [form], [use_Cholesky] and [preconditioner] have no initializer, and
    [L] and [SP] are default-constructed objects of classes declared
    elsewhere: they are whatever the caller of this function supplies. *)
Definition SESyncProblem_default
    (form0 : Formulation) (use_Cholesky0 : bool) (precon0 : Preconditioner)
    (L0 : SparseCholeskyFactorization 0) (SP0 : StiefelProduct)
  : SESyncProblem :=
  @mkProblem form0 0 0 0 0 0
    empty_matrix empty_matrix empty_matrix empty_matrix
    0 0 0 0 0 L0 None use_Cholesky0 precon0 empty_matrix None SP0.

(** *** Accessors *)

Definition formulation (p : SESyncProblem) : Formulation := form p.
Definition num_poses (p : SESyncProblem) : nat := n p.
Definition num_measurements (p : SESyncProblem) : nat := m p.
Definition dimension (p : SESyncProblem) : nat := d p.
Definition relaxation_rank (p : SESyncProblem) : nat := r p.
Definition oriented_incidence_matrix (p : SESyncProblem) : 'M[R]_(n p, m p) :=
  A p.
Definition manifold (p : SESyncProblem) : StiefelProduct := SP p.
Definition JacobiPreconditioner (p : SESyncProblem) : SparseMatrix :=
  JacobiPrecon p.
Definition IncompleteCholsekyPreconditioner (p : SESyncProblem)
  : option (IncompleteCholeskyFactorization (n p * d p)) := iChol p.

(** *** Optimization and geometry *)

Section PiProduct.

Variable p : SESyncProblem.
Variable k : nat.

Local Notation mx := 'M[R]_(m p, k).

(** [PiX.col(c) = v]. *)
Definition set_col (PiX : mx) (c : 'I_k) (v : 'cV[R]_(m p)) : mx :=
  \matrix_(i, j) if j == c then v i 0 else PiX i j.

(** The first branch of [Pi_product]. *)
Definition Pi_product_Cholesky (X : mx) : mx :=
  X - SqrtOmega_AredT p *m chol_solve (L p) (Ared_SqrtOmega p *m X).

(** One column of the second branch:
    [X.col(c) - SqrtOmega_AredT * QR->solve(X.col(c))]. *)
Definition QR_column (qr : SparseQRFactorization (m p) (n p).-1) (X : mx)
    (c : 'I_k) : 'cV[R]_(m p) :=
  col c X - SqrtOmega_AredT p *m qr_solve qr (col c X).

(** [for (unsigned int c = 0; c < X.cols(); c++) PiX.col(c) = ...]
    started at counter value [c]. The counter is compared with the (signed,
    64-bit) column count as an integer and wraps at 2^32. [None] is any run
    that returns no matrix: the null [QR] dereferenced, a column out of
    range, or the iteration budget [fuel] used up. *)
Fixpoint QR_loop (X : mx) (fuel : nat) (c : Z) (PiX : mx) : option mx :=
  match fuel with
  | O => None
  | S fuel' =>
    if (c <? Z.of_nat k)%ZZ then
      match QR p, insub (Z.to_nat c) with
      | Some qr, Some j =>
          QR_loop X fuel' (uint_incr c) (set_col PiX j (QR_column qr X j))
      | _, _ => None
      end
    else Some PiX
  end.

(** The second branch of [Pi_product]: [PiX = X], then the loop. *)
Definition Pi_product_QR (fuel : nat) (X : mx) : option mx :=
  QR_loop X fuel 0%ZZ X.

Definition Pi_product (fuel : nat) (X : mx) : option mx :=
  if use_Cholesky p then Some (Pi_product_Cholesky X)
  else Pi_product_QR fuel X.

(** [LGrho * X + TT_SqrtOmega * Pi_product(SqrtOmega_T * X)]. *)
Definition Q_product (fuel : nat) (X : 'M[R]_(n p * d p, k))
  : option 'M[R]_(n p * d p, k) :=
  omap (fun PiTX => LGrho p *m X + TT_SqrtOmega p *m PiTX)
       (Pi_product fuel (SqrtOmega_T p *m X)).

End PiProduct.

(** All the columns, each computed as the loop body does. *)
Definition QR_columns (p : SESyncProblem) (k : nat)
    (qr : SparseQRFactorization (m p) (n p).-1) (X : 'M[R]_(m p, k))
  : 'M[R]_(m p, k) := \matrix_(i, j) QR_column qr X j i 0.

(** What the class assumes of its cached data once the constructor has
    run for a connected measurement graph: the cached transpose is the
    transpose, and [L] solves with the Gram matrix
    [Ared_SqrtOmega * SqrtOmega_AredT] it factors. *)
Record cholesky_valid (p : SESyncProblem) : Prop := CholeskyValid {
  cached_transpose : SqrtOmega_AredT p = (Ared_SqrtOmega p)^T;
  cholesky_solves : forall (k : nat) (B : 'M[R]_((n p).-1, k)),
    (Ared_SqrtOmega p *m SqrtOmega_AredT p) *m chol_solve (L p) B = B
}.

(** [qr] returns a least-squares solution for the matrix
    [SqrtOmega_AredT] it factors (the normal equations). *)
Definition qr_valid (p : SESyncProblem)
    (qr : SparseQRFactorization (m p) (n p).-1) : Prop :=
  forall x : 'cV[R]_(m p),
    (SqrtOmega_AredT p)^T *m (SqrtOmega_AredT p *m qr_solve qr x)
    = (SqrtOmega_AredT p)^T *m x.

(** The matrix Pi of the orthogonal projection that [Pi_product] applies
    (eq. 39 of the tech report: I - A^T (A A^T)^-1 A for the weighted
    reduced incidence matrix A), and the matrix Q of [Q_product]. *)
Definition Pi_matrix (p : SESyncProblem) : 'M[R]_(m p) :=
  1%:M - SqrtOmega_AredT p
         *m invmx (Ared_SqrtOmega p *m SqrtOmega_AredT p)
         *m Ared_SqrtOmega p.

Definition Q_matrix (p : SESyncProblem) : 'M[R]_(n p * d p) :=
  LGrho p + TT_SqrtOmega p *m Pi_matrix p *m SqrtOmega_T p.

(** The rotational connection Laplacian is symmetric and the cached
    [TT_SqrtOmega] is the transpose of [SqrtOmega_T]. *)
Record data_symmetric (p : SESyncProblem) : Prop := DataSymmetric {
  LGrho_sym : (LGrho p)^T = LGrho p;
  TT_transpose : TT_SqrtOmega p = (SqrtOmega_T p)^T
}.

(** The trace inner product of two matrices of one shape. *)
Definition inner (a b : nat) (X Y : 'M[R]_(a, b)) : R := \tr (X^T *m Y).

(** The header does not fix the shape of M, so the shape of the argument
    of [data_matrix_product] follows the formulation: n·d rows for Q, the
    column count of M for M. *)
Definition data_in (f : Formulation) (p : SESyncProblem) : nat :=
  match f with Simplified => n p * d p | Explicit => sp_cols (M p) end.

Definition data_out (f : Formulation) (p : SESyncProblem) : nat :=
  match f with Simplified => n p * d p | Explicit => sp_rows (M p) end.

(** Modelled from the spec: the body of [data_matrix_product], which the
    header declares and documents but does not define. In the implicit
    (here: [Simplified]) formulation it is
    LGrho·Y + TT_SqrtOmega·Π(SqrtOmega_T·Y), with Π the header's
    [Pi_product]; in the explicit formulation it is M·Y. *)
Definition data_matrix_product (p : SESyncProblem) (fuel : nat) (k : nat)
  : 'M[R]_(data_in (form p) p, k) -> option 'M[R]_(data_out (form p) p, k) :=
  match form p as f
    return 'M[R]_(data_in f p, k) -> option 'M[R]_(data_out f p, k) with
  | Simplified => fun Y =>
      omap (fun PiTY => LGrho p *m Y + TT_SqrtOmega p *m PiTY)
           (Pi_product fuel (SqrtOmega_T p *m Y))
  | Explicit => fun Y => Some (M p *m Y)
  end.

(** *** The manifold operations declared in the header *)

Section Blocks.

Variables (rows nblocks width : nat).

Lemma block_column_bound (i : 'I_nblocks) (b : 'I_width) :
  (i * width + b < nblocks * width)%N.
Proof.
  apply: (@leq_trans (i.+1 * width)%N); last by rewrite leq_mul2r ltn_ord orbT.
  by rewrite mulSn addnC ltn_add2r.
Qed.

(** Column [i * width + b]: column [b] of block [i]. *)
Definition block_column (i : 'I_nblocks) (b : 'I_width)
  : 'I_(nblocks * width) := Ordinal (block_column_bound i b).

(** [Y.block(0, i * width, rows, width)]. *)
Definition block (i : 'I_nblocks) (Y : 'M[R]_(rows, nblocks * width))
  : 'M[R]_(rows, width) := \matrix_(a, b) Y a (block_column i b).

Lemma column_width_gt0 (k : 'I_(nblocks * width)) : (0 < width)%N.
Proof. by case: width k => [[k]|//]; rewrite muln0. Qed.

Lemma column_block_bound (k : 'I_(nblocks * width)) :
  (k %/ width < nblocks)%N.
Proof. by rewrite ltn_divLR ?(column_width_gt0 k). Qed.

Lemma column_offset_bound (k : 'I_(nblocks * width)) : (k %% width < width)%N.
Proof. by rewrite ltn_pmod ?(column_width_gt0 k). Qed.

(** The block a column lies in, and its position there. *)
Definition column_block (k : 'I_(nblocks * width)) : 'I_nblocks :=
  Ordinal (column_block_bound k).

Definition column_offset (k : 'I_(nblocks * width)) : 'I_width :=
  Ordinal (column_offset_bound k).

(** The matrix whose block [i] is [B i]. *)
Definition of_blocks (B : 'I_nblocks -> 'M[R]_(rows, width))
  : 'M[R]_(rows, nblocks * width) :=
  \matrix_(a, k) B (column_block k) a (column_offset k).

(** A point of the manifold: every block has orthonormal columns. *)
Definition on_manifold (Y : 'M[R]_(rows, nblocks * width)) : Prop :=
  forall i : 'I_nblocks, (block i Y)^T *m block i Y = 1%:M.

End Blocks.

(** The symmetric part of a square matrix. *)
Definition sym (q : nat) (S : 'M[R]_q) : 'M[R]_q := 2^-1 *: (S + S^T).

(** Modelled from the spec: the body of [tangent_space_projection], which
    the header only declares. Block by block: from each d-column block of
    V, subtract the block of Y times the symmetric part of (block of Y)^T
    (block of V). *)
Definition tangent_space_projection (p : SESyncProblem)
    (Y V : 'M[R]_(r p, n p * d p)) : 'M[R]_(r p, n p * d p) :=
  of_blocks (fun i => block i V - block i Y *m sym ((block i Y)^T *m block i V)).

End Problem.

Arguments set_col [R] p [k] PiX c v.
Arguments Pi_product_Cholesky [R] p [k] X.
Arguments QR_column [R] p [k] qr X c.
Arguments QR_loop [R] p [k] X fuel c PiX.
Arguments Pi_product_QR [R] p [k] fuel X.
Arguments Pi_product [R] p [k] fuel X.
Arguments Q_product [R] p [k] fuel X.
Arguments QR_columns [R] p [k] qr X.
Arguments cholesky_valid [R] p.
Arguments data_symmetric [R] p.
Arguments qr_valid [R] p qr.
Arguments inner [R a b] X Y.
Arguments tangent_space_projection [R] p Y V.
Arguments on_manifold [R rows nblocks width] Y.
Arguments data_matrix_product [R] p fuel [k] Y.

(** *** Minimum eigenvalue computations *)

(** [struct SMinusLambdaProdFunctor]: its data members and the two inline
    accessors. [int] members are integers; the pointer [_problem] is the
    problem it points to. The constructor and [perform_op] are declared
    only. *)
Module SMinusLambdaProdFunctor.

Record t (R : realFieldType) : Type := mk {
  _problem : SESyncProblem R;
  _Lambda_blocks : SparseMatrix R;
  _rows : Z;
  _cols : Z;
  _dim : Z;
  _sigma : R
}.

Definition rows (R : realFieldType) (f : t R) : Z := _rows f.
Definition cols (R : realFieldType) (f : t R) : Z := _cols f.

End SMinusLambdaProdFunctor.

(** ** Contracts for the QR path alone

    A problem constructed without the Cholesky factor: the cached
    transpose is the transpose, the weighted reduced incidence matrix has
    full row rank (its Gram matrix is nonsingular: the measurement graph is
    connected), and [qr] solves least squares for [SqrtOmega_AredT]. *)
Record qr_cache_valid (R : realFieldType) (p : SESyncProblem R)
    (qr : SparseQRFactorization R (m p) (n p).-1) : Prop := QRCacheValid {
  qr_transpose : SqrtOmega_AredT p = (Ared_SqrtOmega p)^T;
  qr_full_rank : Ared_SqrtOmega p *m SqrtOmega_AredT p \in unitmx;
  qr_normal_equations : qr_valid p qr
}.

Arguments qr_cache_valid [R] p qr.

(** A default-constructed problem whose uninitialized members read
    "implicit formulation, no Cholesky, no preconditioner". *)
Definition example_default : SESyncProblem rat :=
  SESyncProblem_default Simplified false NoPreconditioner
    (mkCholesky (fun k B => B)) (mkStiefel 0 0 0).

(** ** A small instance over the rationals

    Two poses in the plane joined by two measurements 0 -> 1, each with the
    identity rotation, no translation and unit precisions; pose 0 is the
    gauge reference. The reduced incidence matrix is the row (1 1), its
    Gram matrix is (2). *)

Definition example_L : SparseCholeskyFactorization rat 1 :=
  mkCholesky (fun k B => 2^-1 *: B).

Definition example_QR : SparseQRFactorization rat 2 1 :=
  mkQR (fun x => 2^-1 *: (const_mx 1 *m x)).

Definition example_problem : SESyncProblem rat :=
  @mkProblem rat Simplified 2 2 2 2
    (\matrix_(i, e) if i == 0 :> nat then -1 else 1)
    (empty_matrix rat) (empty_matrix rat) (empty_matrix rat)
    (empty_matrix rat)
    (\matrix_(i, j) if i == j then 2
                    else if (i %% 2 == j %% 2)%N then -2 else 0)
    (const_mx 1) (const_mx 1) 0 0
    example_L (Some example_QR) true NoPreconditioner
    (empty_matrix rat) None (mkStiefel 2 2 2).

(** The same instance constructed without the Cholesky factor: [L] is
    left as a solver that was never computed. *)
Definition example_problem_QR : SESyncProblem rat :=
  @mkProblem rat Simplified 2 2 2 2
    (\matrix_(i, e) if i == 0 :> nat then -1 else 1)
    (empty_matrix rat) (empty_matrix rat) (empty_matrix rat)
    (empty_matrix rat)
    (\matrix_(i, j) if i == j then 2
                    else if (i %% 2 == j %% 2)%N then -2 else 0)
    (const_mx 1) (const_mx 1) 0 0
    (mkCholesky (fun k B => B)) (Some example_QR) false NoPreconditioner
    (empty_matrix rat) None (mkStiefel 2 2 2).

(** The instance with a translation measured: the first measurement
    carries a unit translation along the first axis, so the weighted
    translational data matrix is not zero. Once constructed with the
    Cholesky factor ([QR] stays null), once with the QR factorization
    ([L] is never computed). *)
Definition example_T : 'M[rat]_(2, 2 * 2) := delta_mx 0 0.

Definition example_translated : SESyncProblem rat :=
  @mkProblem rat Simplified 2 2 2 2
    (\matrix_(i, e) if i == 0 :> nat then -1 else 1)
    (empty_matrix rat) (empty_matrix rat) (empty_matrix rat)
    (empty_matrix rat)
    (\matrix_(i, j) if i == j then 2
                    else if (i %% 2 == j %% 2)%N then -2 else 0)
    (const_mx 1) (const_mx 1) example_T example_T^T
    example_L None true NoPreconditioner
    (empty_matrix rat) None (mkStiefel 2 2 2).

Definition example_translated_QR : SESyncProblem rat :=
  @mkProblem rat Simplified 2 2 2 2
    (\matrix_(i, e) if i == 0 :> nat then -1 else 1)
    (empty_matrix rat) (empty_matrix rat) (empty_matrix rat)
    (empty_matrix rat)
    (\matrix_(i, j) if i == j then 2
                    else if (i %% 2 == j %% 2)%N then -2 else 0)
    (const_mx 1) (const_mx 1) example_T example_T^T
    (mkCholesky (fun k B => B)) (Some example_QR) false NoPreconditioner
    (empty_matrix rat) None (mkStiefel 2 2 2).

(** Both poses carry the 2 x 2 identity: a point of the manifold for
    relaxation rank 2. *)
Definition example_point : 'M[rat]_(2, 2 * 2) :=
  \matrix_(a, k) (a == k %% 2 :> nat)%N%:R.

(** * Theorems *)

Section UintTheory.

Lemma uint_incr_is_uint (c : Z) : is_uint (uint_incr c).
Proof.
  rewrite /is_uint /uint_incr.
  by apply: Z.mod_pos_bound.
Qed.

Lemma uint_incr_small (c bound : Z) :
  (0 <= c < bound)%ZZ -> (bound < UINT_MODULUS)%ZZ ->
  uint_incr c = (c + 1)%ZZ.
Proof.
  move=> Hc Hb; rewrite /uint_incr.
  apply: Z.mod_small; lia.
Qed.

End UintTheory.

Section PiProductTheory.

Variable R : realFieldType.
Variable p : SESyncProblem R.
Variable k : nat.

Local Notation mx := 'M[R]_(m p, k).

(** The loop never leaves when the column count does not fit the counter:
    every counter value is below the bound. *)
Lemma QR_loop_wraps (X : mx) :
  (UINT_MODULUS <= Z.of_nat k)%ZZ ->
  forall (fuel : nat) (c : Z) (PiX : mx),
    is_uint c -> QR_loop p X fuel c PiX = None.
Proof.
  move=> Hk; elim=> [|fuel IH] c PiX Hc //=.
  have -> : (c <? Z.of_nat k)%ZZ = true.
    by apply/Z.ltb_lt; move: Hc; rewrite /is_uint; lia.
  case: (QR p) => [qr|] //; case: insub => [j|] //.
  by apply: IH; apply: uint_incr_is_uint.
Qed.

Lemma QR_loop_run (qr : SparseQRFactorization R (m p) (n p).-1) (X : mx) :
  QR p = Some qr -> (Z.of_nat k < UINT_MODULUS)%ZZ ->
  forall (fuel c : nat) (PiX : mx), (c <= k)%N ->
    QR_loop p X fuel (Z.of_nat c) PiX =
    if (k - c < fuel)%N
    then Some (\matrix_(i, j) if (j < c)%N then PiX i j
                              else QR_column p qr X j i 0)
    else None.
Proof.
  move=> Hqr Hk; elim=> [|fuel IH] c PiX Hc //=.
  rewrite leq_eqVlt in Hc; case/orP: Hc => [/eqP Hc | Hc].
  - have -> : (Z.of_nat c <? Z.of_nat k)%ZZ = false.
      by apply/Z.ltb_ge; rewrite Hc; lia.
    rewrite Hc subnn ltn0Sn; congr Some.
    by apply/matrixP => i j; rewrite mxE ltn_ord.
  - have -> : (Z.of_nat c <? Z.of_nat k)%ZZ = true.
      by apply/Z.ltb_lt; move/ltP: Hc; lia.
    rewrite Hqr Nat2Z.id insubT.
    have -> : uint_incr (Z.of_nat c) = Z.of_nat c.+1.
      have Hc' := ltP Hc.
      by rewrite (@uint_incr_small _ (Z.of_nat k)) //; lia.
    rewrite IH // subnSK // ltnS.
    case: ifP => // _; congr Some.
    apply/matrixP => i j; rewrite [LHS]mxE [RHS]mxE ltnS leq_eqVlt.
    have [Ejc | Njc] /= := eqVneq (j : nat) c.
    - have -> : j = Sub c Hc by apply: val_inj.
      by rewrite /= ltnn mxE eqxx.
    - by case: ifP => // _; rewrite mxE -val_eqE /= (negbTE Njc).
Qed.

Lemma col_mulmx (a b : nat) (C : 'M[R]_(a, b)) (X : 'M[R]_(b, k)) (j : 'I_k) :
  col j (C *m X) = C *m col j X.
Proof. by rewrite !colE mulmxA. Qed.

Section CholeskyValid.

Hypothesis valid : cholesky_valid p.

Lemma Gram_unit : Ared_SqrtOmega p *m SqrtOmega_AredT p \in unitmx.
Proof.
  have /mulmx1_unit [] // := cholesky_solves valid (1%:M : 'M_((n p).-1)).
Qed.

Lemma Ared_is_transpose : Ared_SqrtOmega p = (SqrtOmega_AredT p)^T.
Proof. by rewrite (cached_transpose valid) trmxK. Qed.

Lemma chol_solveE (B : 'M[R]_((n p).-1, k)) :
  chol_solve (L p) B
  = invmx (Ared_SqrtOmega p *m SqrtOmega_AredT p) *m B.
Proof.
  apply: (can_inj (mulKmx Gram_unit)).
  by rewrite (cholesky_solves valid) mulKVmx ?Gram_unit.
Qed.

Lemma Pi_product_CholeskyE (X : mx) :
  Pi_product_Cholesky p X = Pi_matrix p *m X.
Proof.
  rewrite /Pi_product_Cholesky /Pi_matrix chol_solveE.
  by rewrite mulmxBl mul1mx !mulmxA.
Qed.

Section QRValid.

Variable qr : SparseQRFactorization R (m p) (n p).-1.
Hypothesis qr_ok : qr_valid p qr.

(** Both solvers return the solution of the same nonsingular system. *)
Lemma qr_solve_col (X : mx) (j : 'I_k) :
  qr_solve qr (col j X) = col j (chol_solve (L p) (Ared_SqrtOmega p *m X)).
Proof.
  apply: (can_inj (mulKmx Gram_unit)).
  rewrite -col_mulmx (cholesky_solves valid) col_mulmx -mulmxA.
  by rewrite Ared_is_transpose qr_ok.
Qed.

Lemma QR_column_Cholesky (X : mx) (j : 'I_k) :
  QR_column p qr X j = col j (Pi_product_Cholesky p X).
Proof.
  by rewrite /QR_column /Pi_product_Cholesky raddfB /= col_mulmx qr_solve_col.
Qed.

Lemma QR_columns_Cholesky (X : mx) :
  QR_columns p qr X = Pi_product_Cholesky p X.
Proof.
  by apply/matrixP => i j; rewrite mxE QR_column_Cholesky mxE.
Qed.

(** While a valid [QR] is installed and the column count fits the
    counter, the second branch returns after [k] iterations and the final
    test. *)
Lemma Pi_product_QR_run (X : mx) (fuel : nat) :
  QR p = Some qr -> (Z.of_nat k < UINT_MODULUS)%ZZ ->
  Pi_product_QR p fuel X =
  if (k < fuel)%N then Some (Pi_product_Cholesky p X) else None.
Proof.
  move=> Hqr Hk.
  rewrite /Pi_product_QR (QR_loop_run X Hqr Hk fuel X (leq0n k)) subn0.
  case: ifP => // _; congr Some; rewrite -QR_columns_Cholesky.
  by apply/matrixP => i j; rewrite !mxE.
Qed.

(** C2. For one problem whose Cholesky factor and QR factorization are both
    valid, and one input X, the two branches of [Pi_product] compute the
    same matrix in exact arithmetic: whatever the QR branch
    (column by column) returns is the value of the Cholesky branch
    [X - SqrtOmega_AredT * L.solve(Ared_SqrtOmega * X)], and the QR branch
    does return it, after cols+1 loop tests, when the column count of X is
    in the range of its [unsigned int] counter. *)
Theorem Pi_product_Cholesky_QR_agree (X : mx) :
  QR p = Some qr ->
  (forall (fuel : nat) (PiX : mx),
      Pi_product_QR p fuel X = Some PiX -> PiX = Pi_product_Cholesky p X)
  /\ ((Z.of_nat k < UINT_MODULUS)%ZZ ->
      forall fuel : nat, (k < fuel)%N ->
        Pi_product_QR p fuel X = Some (Pi_product_Cholesky p X)).
Proof.
  move=> Hqr; split=> [fuel PiX | Hk fuel Hfuel]; last first.
    by rewrite Pi_product_QR_run // Hfuel.
  case: (Z_lt_le_dec (Z.of_nat k) UINT_MODULUS) => Hk.
  - by rewrite Pi_product_QR_run //; case: ifP => // _ [].
  - by rewrite /Pi_product_QR QR_loop_wraps.
Qed.

End QRValid.

End CholeskyValid.

End PiProductTheory.

Section ProjectionTheory.

Variable R : realFieldType.
Variable p : SESyncProblem R.
Hypothesis valid : cholesky_valid p.

Local Notation Ared := (Ared_SqrtOmega p).
Local Notation AredT := (SqrtOmega_AredT p).

Lemma Gram_sym : (Ared *m AredT)^T = Ared *m AredT.
Proof. by rewrite trmx_mul -Ared_is_transpose // (cached_transpose valid). Qed.

Lemma Ared_Pi_matrix : Ared *m Pi_matrix p = 0.
Proof.
  rewrite /Pi_matrix mulmxBr mulmx1 !mulmxA mulmxV ?mul1mx ?subrr //.
  exact: Gram_unit.
Qed.

Lemma Pi_matrix_idempotent : Pi_matrix p *m Pi_matrix p = Pi_matrix p.
Proof.
  rewrite {1}/Pi_matrix mulmxBl mul1mx -!mulmxA Ared_Pi_matrix.
  by rewrite !mulmx0 subr0.
Qed.

Lemma Pi_matrix_sym : (Pi_matrix p)^T = Pi_matrix p.
Proof.
  rewrite /Pi_matrix raddfB /= trmx1 !trmx_mul trmx_inv Gram_sym.
  by rewrite -Ared_is_transpose // -(cached_transpose valid) mulmxA.
Qed.

(** With the Cholesky factor in use, [Pi_product] returns Pi * X for the
    matrix Pi above, which is an orthogonal projection (idempotent and
    symmetric) onto the kernel of the weighted reduced incidence matrix. *)
Theorem Pi_product_orthogonal_projection :
  use_Cholesky p ->
  [/\ forall (fuel k : nat) (X : 'M[R]_(m p, k)),
        Pi_product p fuel X = Some (Pi_matrix p *m X),
      Pi_matrix p *m Pi_matrix p = Pi_matrix p,
      (Pi_matrix p)^T = Pi_matrix p
    & Ared *m Pi_matrix p = 0].
Proof.
  move=> chol; split.
  - by move=> fuel k X; rewrite /Pi_product chol Pi_product_CholeskyE.
  - exact: Pi_matrix_idempotent.
  - exact: Pi_matrix_sym.
  - exact: Ared_Pi_matrix.
Qed.

Lemma Q_productE (fuel k : nat) (X : 'M[R]_(n p * d p, k)) :
  use_Cholesky p -> Q_product p fuel X = Some (Q_matrix p *m X).
Proof.
  move=> chol; rewrite /Q_product /Pi_product chol /= Pi_product_CholeskyE //.
  by rewrite /Q_matrix mulmxDl !mulmxA.
Qed.

(** With the Cholesky factor in use, [Q_product] returns Q * X for one
    matrix Q = LGrho + TT_SqrtOmega * Pi * SqrtOmega_T, whatever the number
    of columns of X. *)
Theorem Q_product_matrix (fuel k : nat) (X : 'M[R]_(n p * d p, k)) :
  use_Cholesky p -> Q_product p fuel X = Some (Q_matrix p *m X).
Proof. exact: Q_productE. Qed.

Lemma Q_matrix_sym : data_symmetric p -> (Q_matrix p)^T = Q_matrix p.
Proof.
  case=> LGsym TTtr; rewrite /Q_matrix raddfD /= !trmx_mul LGsym Pi_matrix_sym.
  by rewrite TTtr trmxK mulmxA.
Qed.

(** With the Cholesky factor in use, [Q_product] is linear in X. *)
Theorem Q_product_linear (fuel k : nat) (a : R) (X Y QX QY : 'M[R]_(n p * d p, k)) :
  use_Cholesky p ->
  Q_product p fuel X = Some QX -> Q_product p fuel Y = Some QY ->
  Q_product p fuel (a *: X + Y) = Some (a *: QX + QY).
Proof.
  move=> chol; rewrite !Q_productE // => -[<-] [<-].
  by rewrite mulmxDr -scalemxAr.
Qed.

(** With the Cholesky factor in use and symmetric data, [Q_product] is
    self-adjoint for the trace inner product. *)
Theorem Q_product_self_adjoint (fuel k : nat) (X Y QX QY : 'M[R]_(n p * d p, k)) :
  use_Cholesky p -> data_symmetric p ->
  Q_product p fuel X = Some QX -> Q_product p fuel Y = Some QY ->
  inner QX Y = inner X QY.
Proof.
  move=> chol dsym; rewrite !Q_productE // => -[<-] [<-].
  by rewrite /inner trmx_mul Q_matrix_sym // mulmxA.
Qed.

End ProjectionTheory.

Section Accessors.

Variable R : realFieldType.

(** C10. A default-constructed problem has n = m = d = r = 0: whatever the
    uninitialized members hold, [num_poses], [num_measurements],
    [dimension] and [relaxation_rank] all return 0 on it. *)
Theorem default_constructed_counts
    (form0 : Formulation) (use_Cholesky0 : bool) (precon0 : Preconditioner)
    (L0 : SparseCholeskyFactorization R 0) (SP0 : StiefelProduct) :
  let p := SESyncProblem_default form0 use_Cholesky0 precon0 L0 SP0 in
  [/\ num_poses p = 0%N, num_measurements p = 0%N, dimension p = 0%N
     & relaxation_rank p = 0%N].
Proof. by []. Qed.

End Accessors.

Section BlockTheory.

Variable R : realFieldType.
Variables (rows nblocks width : nat).

Local Notation point := 'M[R]_(rows, nblocks * width).

Lemma column_block_of (i : 'I_nblocks) (b : 'I_width) :
  column_block (block_column i b) = i.
Proof.
  apply: val_inj => /=.
  by rewrite divnMDl ?divn_small ?addn0 //; apply: leq_ltn_trans (ltn_ord b).
Qed.

Lemma column_offset_of (i : 'I_nblocks) (b : 'I_width) :
  column_offset (block_column i b) = b.
Proof. by apply: val_inj; rewrite /= modnMDl modn_small. Qed.

Lemma block_of_blocks (B : 'I_nblocks -> 'M[R]_(rows, width)) i :
  block i (of_blocks B) = B i.
Proof.
  by apply/matrixP => a b; rewrite !mxE column_block_of column_offset_of.
Qed.

Lemma eq_of_blocks (B B' : 'I_nblocks -> 'M[R]_(rows, width)) :
  B =1 B' -> of_blocks B = of_blocks B'.
Proof. by move=> eqB; apply/matrixP => a c; rewrite !mxE eqB. Qed.

End BlockTheory.

Section SymTheory.

Variable R : realFieldType.
Variable q : nat.
Implicit Types S T : 'M[R]_q.

Lemma symB S T : sym (S - T) = sym S - sym T.
Proof.
  by rewrite /sym raddfB /= -scalerBr opprD addrACA.
Qed.

Lemma sym_tr S : (sym S)^T = sym S.
Proof. by rewrite /sym linearZ /= raddfD /= trmxK addrC. Qed.

Lemma sym_id S : S^T = S -> sym S = S.
Proof.
  move=> ST; rewrite /sym ST -mulr2n -scaler_nat scalerA mulVf ?scale1r //.
  by rewrite pnatr_eq0.
Qed.

Lemma sym_sym S : sym (sym S) = sym S.
Proof. by rewrite sym_id // sym_tr. Qed.

(** The part left after removing the symmetric part is skew. *)
Lemma sym_skew S : sym (S - sym S) = 0.
Proof. by rewrite symB sym_sym subrr. Qed.

End SymTheory.

Section ManifoldTheory.

Variable R : realFieldType.
Variable p : SESyncProblem R.

Local Notation point := 'M[R]_(r p, n p * d p).

Lemma block_tangent_space_projection (Y V : point) i :
  block i (tangent_space_projection p Y V)
  = block i V - block i Y *m sym ((block i Y)^T *m block i V).
Proof. by rewrite /tangent_space_projection block_of_blocks. Qed.

(** C5. At a point Y of the manifold (every d-column block has
    orthonormal columns), the tangent-space projection is idempotent:
    projecting a projected matrix changes nothing, for every matrix V of
    the shape of Y. *)
Theorem tangent_space_projection_idempotent (Y V : point) :
  on_manifold Y ->
  tangent_space_projection p Y (tangent_space_projection p Y V)
  = tangent_space_projection p Y V.
Proof.
  move=> Yfeasible; rewrite {1}/tangent_space_projection.
  apply: eq_of_blocks => i; rewrite block_tangent_space_projection.
  rewrite mulmxBr mulmxA Yfeasible mul1mx sym_skew mulmx0 subr0.
  by [].
Qed.

End ManifoldTheory.

Section QRLoopBehaviour.

Variable R : realFieldType.
Variable p : SESyncProblem R.
Variable k : nat.

Local Notation mx := 'M[R]_(m p, k).

Lemma Pi_product_QR_columnsE (qr : SparseQRFactorization R (m p) (n p).-1)
    (X : mx) (fuel : nat) :
  QR p = Some qr -> (Z.of_nat k < UINT_MODULUS)%ZZ ->
  Pi_product_QR p fuel X =
  if (k < fuel)%N then Some (QR_columns p qr X) else None.
Proof.
  move=> Hqr Hk.
  rewrite /Pi_product_QR (QR_loop_run X Hqr Hk fuel X (leq0n k)) subn0.
  by case: ifP => // _; congr Some; apply/matrixP => i j; rewrite !mxE.
Qed.

(** With a QR object installed (valid or not) and a column count in the
    range of the counter, the loop of the second branch makes exactly
    X.cols() passes: it has no result on a budget of X.cols() tests or
    fewer, and otherwise returns the matrix whose column c is
    X.col(c) - SqrtOmega_AredT * QR->solve(X.col(c)), each column computed
    from X alone. *)
Theorem Pi_product_QR_columns (qr : SparseQRFactorization R (m p) (n p).-1)
    (X : mx) (fuel : nat) :
  QR p = Some qr -> (Z.of_nat k < UINT_MODULUS)%ZZ ->
  Pi_product_QR p fuel X =
  if (k < fuel)%N then Some (QR_columns p qr X) else None.
Proof. exact: Pi_product_QR_columnsE. Qed.

(** With no QR object (the null pointer of the member initializer) and
    the Cholesky flag off, [Pi_product] returns X itself when X has no
    column and has no result as soon as X has one: the loop body
    dereferences the null pointer. *)
Theorem Pi_product_null_QR (X : mx) (fuel : nat) :
  QR p = None -> use_Cholesky p = false -> (0 < fuel)%N ->
  Pi_product p fuel X = if (k == 0)%N then Some X else None.
Proof.
  move=> Hqr Hchol; rewrite /Pi_product Hchol /Pi_product_QR.
  case: fuel => // fuel _ /=; rewrite Hqr.
  case: k X => [|k'] X //=.
Qed.

(** When X has 2^32 columns or more, the second branch never returns:
    the 32-bit counter wraps before it can reach X.cols(). *)
Theorem Pi_product_QR_counter_wraps (X : mx) :
  (UINT_MODULUS <= Z.of_nat k)%ZZ ->
  forall fuel : nat, Pi_product_QR p fuel X = None.
Proof. by move=> Hk fuel; rewrite /Pi_product_QR QR_loop_wraps. Qed.

End QRLoopBehaviour.

Section QRModeTheory.

Variable R : realFieldType.
Variable p : SESyncProblem R.
Variable qr : SparseQRFactorization R (m p) (n p).-1.
Hypothesis valid : qr_cache_valid p qr.

Local Notation Ared := (Ared_SqrtOmega p).
Local Notation AredT := (SqrtOmega_AredT p).

Lemma qr_solveE (x : 'cV[R]_(m p)) :
  qr_solve qr x = invmx (Ared *m AredT) *m (Ared *m x).
Proof.
  apply: (can_inj (mulKmx (qr_full_rank valid))).
  rewrite mulKVmx ?(qr_full_rank valid) // -mulmxA.
  have -> : Ared = AredT^T by rewrite (qr_transpose valid) trmxK.
  exact: (qr_normal_equations valid).
Qed.

Lemma QR_columnsE (k : nat) (X : 'M[R]_(m p, k)) :
  QR_columns p qr X = Pi_matrix p *m X.
Proof.
  apply/matrixP => i j; rewrite mxE.
  have -> : QR_column p qr X j = col j (Pi_matrix p *m X).
    rewrite /QR_column qr_solveE col_mulmx /Pi_matrix mulmxBl mul1mx.
    by rewrite !mulmxA.
  by rewrite mxE.
Qed.

Lemma Pi_product_QR_modeE (fuel k : nat) (X : 'M[R]_(m p, k)) :
  use_Cholesky p = false -> QR p = Some qr ->
  (Z.of_nat k < UINT_MODULUS)%ZZ -> (k < fuel)%N ->
  Pi_product p fuel X = Some (Pi_matrix p *m X).
Proof.
  move=> Hchol Hqr Hk Hfuel; rewrite /Pi_product Hchol.
  by rewrite (Pi_product_QR_columnsE X fuel Hqr Hk) Hfuel QR_columnsE.
Qed.

(** With the QR factorization in use, valid for a full-rank weighted
    reduced incidence matrix, [Pi_product] returns Pi * X for the same
    projection matrix Pi as the Cholesky path, without any use of [L],
    whenever X.cols() < 2^32. *)
Theorem Pi_product_QR_mode (fuel k : nat) (X : 'M[R]_(m p, k)) :
  use_Cholesky p = false -> QR p = Some qr ->
  (Z.of_nat k < UINT_MODULUS)%ZZ -> (k < fuel)%N ->
  Pi_product p fuel X = Some (Pi_matrix p *m X).
Proof. exact: Pi_product_QR_modeE. Qed.

Lemma Q_product_QR_modeE (fuel k : nat) (X : 'M[R]_(n p * d p, k)) :
  use_Cholesky p = false -> QR p = Some qr ->
  (Z.of_nat k < UINT_MODULUS)%ZZ -> (k < fuel)%N ->
  Q_product p fuel X = Some (Q_matrix p *m X).
Proof.
  move=> Hchol Hqr Hk Hfuel; rewrite /Q_product Pi_product_QR_modeE //=.
  by rewrite /Q_matrix mulmxDl !mulmxA.
Qed.

(** With the QR factorization in use, [Q_product] returns Q * X for the
    same matrix Q as on the Cholesky path. *)
Theorem Q_product_QR_mode (fuel k : nat) (X : 'M[R]_(n p * d p, k)) :
  use_Cholesky p = false -> QR p = Some qr ->
  (Z.of_nat k < UINT_MODULUS)%ZZ -> (k < fuel)%N ->
  Q_product p fuel X = Some (Q_matrix p *m X).
Proof.
  move=> Hchol Hqr Hk Hfuel; rewrite /Q_product Pi_product_QR_modeE //=.
  by rewrite /Q_matrix mulmxDl !mulmxA.
Qed.

End QRModeTheory.

Section DataMatrixProduct.

Variable R : realFieldType.
Variable p : SESyncProblem R.

(** C1. [data_matrix_product(Y)] returns S·Y for the quadratic form of the
    formulation. In the implicit formulation it is the header's
    [Q_product], that is
    LGrho * Y + TT_SqrtOmega * Pi_product(SqrtOmega_T * Y); and on either
    path of [Pi_product] it returns Q * Y for the one matrix
    Q = LGrho + TT_SqrtOmega * Pi * SqrtOmega_T, with Pi the orthogonal
    projection: on the Cholesky path whenever the factor is valid, on the
    QR path whenever the factorization is valid and the column count of Y
    is in the range of the loop counter. In the explicit formulation it
    returns M * Y. *)
Theorem data_matrix_product_formulation (fuel k : nat) :
  match form p as f
    return ('M[R]_(data_in f p, k) -> option 'M[R]_(data_out f p, k)) -> Prop
  with
  | Simplified => fun S_product =>
      forall Y : 'M[R]_(n p * d p, k),
        [/\ S_product Y = Q_product p fuel Y,
            S_product Y =
              omap (fun PiTY => LGrho p *m Y + TT_SqrtOmega p *m PiTY)
                   (Pi_product p fuel (SqrtOmega_T p *m Y)),
            cholesky_valid p -> use_Cholesky p ->
            S_product Y = Some (Q_matrix p *m Y)
          & forall qr : SparseQRFactorization R (m p) (n p).-1,
            qr_cache_valid p qr -> use_Cholesky p = false ->
            QR p = Some qr ->
            (Z.of_nat k < UINT_MODULUS)%ZZ -> (k < fuel)%N ->
            S_product Y = Some (Q_matrix p *m Y)]
  | Explicit => fun S_product =>
      forall Y : 'M[R]_(sp_cols (M p), k), S_product Y = Some (M p *m Y)
  end (data_matrix_product p fuel (k := k)).
Proof.
  rewrite /data_matrix_product; case: (form p) => // Y; split=> //.
  - by move=> valid chol; exact: Q_productE.
  - by move=> qr valid Hchol Hqr Hk Hfuel; exact: (Q_product_QR_modeE valid).
Qed.

End DataMatrixProduct.

Section InnerTheory.

Variable R : realFieldType.
Variables a b : nat.
Implicit Types X Y Z : 'M[R]_(a, b).

Lemma inner_sym X Y : inner X Y = inner Y X.
Proof. by rewrite /inner -mxtrace_tr trmx_mul trmxK. Qed.

Lemma innerDl X Y Z : inner (X + Y) Z = inner X Z + inner Y Z.
Proof. by rewrite /inner raddfD /= mulmxDl raddfD. Qed.

Lemma innerDr X Y Z : inner X (Y + Z) = inner X Y + inner X Z.
Proof. by rewrite /inner mulmxDr raddfD. Qed.

Lemma inner_ge0 X : 0 <= inner X X.
Proof.
  rewrite /inner /mxtrace; apply: sumr_ge0 => i _; rewrite mxE.
  by apply: sumr_ge0 => j _; rewrite mxE -expr2 sqr_ge0.
Qed.

End InnerTheory.

Section ProjectionGeometry.

Variable R : realFieldType.
Variable p : SESyncProblem R.
Hypothesis valid : cholesky_valid p.

Local Notation Ared := (Ared_SqrtOmega p).
Local Notation AredT := (SqrtOmega_AredT p).

Lemma Pi_matrix_AredT : Pi_matrix p *m AredT = 0.
Proof.
  rewrite /Pi_matrix mulmxBl mul1mx -!mulmxA mulVmx ?mulmx1 ?subrr //.
  exact: Gram_unit.
Qed.

(** With a valid Cholesky factor in use, [Pi_product] leaves every X with
    Ared_SqrtOmega * X = 0 unchanged and sends every matrix of the form
    SqrtOmega_AredT * Z to 0: it projects onto the kernel of the weighted
    reduced incidence matrix along the range of its transpose. *)
Theorem Pi_product_kernel_range :
  use_Cholesky p ->
  (forall (fuel k : nat) (X : 'M[R]_(m p, k)),
      Ared *m X = 0 -> Pi_product p fuel X = Some X)
  /\ (forall (fuel k : nat) (Z : 'M[R]_((n p).-1, k)),
      Pi_product p fuel (AredT *m Z) = Some 0).
Proof.
  move=> chol; split=> [fuel k X AX0 | fuel k Z].
  - rewrite /Pi_product chol Pi_product_CholeskyE // /Pi_matrix.
    by rewrite mulmxBl mul1mx -!mulmxA AX0 !mulmx0 subr0.
  - rewrite /Pi_product chol Pi_product_CholeskyE // mulmxA.
    by rewrite Pi_matrix_AredT mul0mx.
Qed.

Lemma inner_Pi_residual (k : nat) (X : 'M[R]_(m p, k)) :
  inner (Pi_matrix p *m X) (X - Pi_matrix p *m X) = 0.
Proof.
  rewrite /inner trmx_mul Pi_matrix_sym // mulmxBr.
  rewrite [X^T *m _ *m (_ *m X)]mulmxA -[X^T *m _ *m Pi_matrix p]mulmxA.
  by rewrite Pi_matrix_idempotent // subrr mxtrace0.
Qed.

(** With a valid Cholesky factor in use, the result of [Pi_product] is
    orthogonal to what it removes, for the trace inner product; so
    <X, X> = <PiX, PiX> + <X - PiX, X - PiX>, and [Pi_product] never
    increases the norm. *)
Theorem Pi_product_pythagoras (fuel k : nat) (X PiX : 'M[R]_(m p, k)) :
  use_Cholesky p -> Pi_product p fuel X = Some PiX ->
  [/\ inner PiX (X - PiX) = 0,
      inner X X = inner PiX PiX + inner (X - PiX) (X - PiX)
    & inner PiX PiX <= inner X X].
Proof.
  move=> chol; rewrite /Pi_product chol Pi_product_CholeskyE // => -[<-].
  set P := Pi_matrix p *m X.
  have orth : inner P (X - P) = 0 by exact: inner_Pi_residual.
  have split_norm : inner X X = inner P P + inner (X - P) (X - P).
    rewrite -{1 2}[X](subrK P) [X - P + P]addrC.
    rewrite innerDl [inner P (P + _)]innerDr [inner (X - P) (P + _)]innerDr.
    rewrite orth [inner (X - P) P]inner_sym orth.
    by rewrite addr0 add0r.
  by split=> //; rewrite split_norm lerDl inner_ge0.
Qed.

(** With a valid Cholesky factor in use and symmetric data, the quadratic
    form of [Q_product] is the one of LGrho plus the squared norm of the
    projected translational part: <X, QX> = <X, LGrho X> + <Pi T X, Pi T X>
    with T = SqrtOmega_T; so it is never below the one of LGrho. *)
Theorem Q_product_quadratic_form (fuel k : nat) (X QX : 'M[R]_(n p * d p, k)) :
  use_Cholesky p -> data_symmetric p -> Q_product p fuel X = Some QX ->
  inner X QX
  = inner X (LGrho p *m X)
    + inner (Pi_matrix p *m (SqrtOmega_T p *m X))
            (Pi_matrix p *m (SqrtOmega_T p *m X))
  /\ inner X (LGrho p *m X) <= inner X QX.
Proof.
  move=> chol [_ TTtr]; rewrite Q_productE // => -[<-].
  have -> : inner X (Q_matrix p *m X)
    = inner X (LGrho p *m X)
      + inner (Pi_matrix p *m (SqrtOmega_T p *m X))
              (Pi_matrix p *m (SqrtOmega_T p *m X)).
    rewrite /Q_matrix mulmxDl innerDr; congr (_ + _).
    rewrite /inner !trmx_mul Pi_matrix_sym // TTtr !mulmxA.
    by rewrite -[_ *m Pi_matrix p *m Pi_matrix p]mulmxA Pi_matrix_idempotent.
  by split=> //; rewrite lerDl inner_ge0.
Qed.

End ProjectionGeometry.

Section ExampleTheory.

Lemma example_Gram :
  Ared_SqrtOmega example_problem *m SqrtOmega_AredT example_problem = 2%:M.
Proof.
  apply/matrixP => i j; rewrite !mxE !ord1 /= !big_ord_recl big_ord0.
  by rewrite !mxE mulr1 addr0.
Qed.

Lemma example_cholesky_valid : cholesky_valid example_problem.
Proof.
  split=> [|k B] /=; first by rewrite trmx_const.
  by rewrite example_Gram /= mul_scalar_mx scalerA mulfV ?scale1r.
Qed.

Lemma example_qr_valid : qr_valid example_problem example_QR.
Proof.
  move=> x /=; rewrite trmx_const mulmxA example_Gram mul_scalar_mx scalerA.
  by rewrite mulfV ?scale1r.
Qed.

Lemma example_QR_installed : QR example_problem = Some example_QR.
Proof. by []. Qed.

(** The projection removes the component along (1 1): the all-ones column
    is sent to 0. *)
Example Pi_product_Cholesky_ones :
  Pi_product_Cholesky example_problem (const_mx 1 : 'M_(2, 1)) = 0.
Proof.
  rewrite /Pi_product_Cholesky /= (example_Gram : const_mx 1 *m _ = _).
  rewrite -mul_scalar_mx -scalar_mxM mulVf // mulmx1.
  by rewrite subrr.
Qed.

(** Both branches on the 2 x 1 matrix of ones. *)
Lemma Pi_product_Cholesky_QR_agree_example :
  Pi_product_QR example_problem 2 (const_mx 1 : 'M_(2, 1))
  = Some (Pi_product_Cholesky example_problem (const_mx 1 : 'M_(2, 1))).
Proof.
  apply: (proj2 (Pi_product_Cholesky_QR_agree example_cholesky_valid
                   example_qr_valid (const_mx 1) example_QR_installed)).
  - by [].
  - by [].
Defined.

Lemma example_data_symmetric : data_symmetric example_problem.
Proof.
  split=> /=; last by rewrite trmx0.
  apply/matrixP => i j; rewrite !mxE [j == i]eq_sym.
  by rewrite [(j %% 2 == i %% 2)%N]eq_sym.
Qed.

Lemma example_uses_Cholesky : use_Cholesky example_problem.
Proof. by []. Qed.

Lemma Pi_product_orthogonal_projection_example :
  [/\ forall (fuel k : nat) (X : 'M[rat]_(2, k)),
        Pi_product example_problem fuel X
        = Some (Pi_matrix example_problem *m X),
      Pi_matrix example_problem *m Pi_matrix example_problem
      = Pi_matrix example_problem,
      (Pi_matrix example_problem)^T = Pi_matrix example_problem
    & Ared_SqrtOmega example_problem *m Pi_matrix example_problem = 0].
Proof.
  exact: (Pi_product_orthogonal_projection example_cholesky_valid
            example_uses_Cholesky).
Defined.

Lemma example_Q_product (k : nat) (X : 'M[rat]_(2 * 2, k)) :
  Q_product example_problem 0 X = Some (Q_matrix example_problem *m X).
Proof.
  by apply: Q_productE; [exact: example_cholesky_valid | ].
Qed.

Lemma Q_product_matrix_example :
  Q_product example_problem 0 (1%:M : 'M_(2 * 2))
  = Some (Q_matrix example_problem *m 1%:M).
Proof.
  apply: Q_product_matrix.
  - exact: example_cholesky_valid.
  - exact: example_uses_Cholesky.
Defined.

Lemma Q_product_linear_example :
  Q_product example_problem 0 (2 *: 1%:M + 1%:M : 'M_(2 * 2))
  = Some (2 *: (Q_matrix example_problem *m 1%:M)
          + Q_matrix example_problem *m 1%:M).
Proof.
  apply: Q_product_linear.
  - exact: example_cholesky_valid.
  - exact: example_uses_Cholesky.
  - exact: example_Q_product.
  - exact: example_Q_product.
Defined.

Lemma Q_product_self_adjoint_example :
  inner (Q_matrix example_problem *m 1%:M) (const_mx 1 : 'M_(2 * 2))
  = inner (1%:M : 'M_(2 * 2)) (Q_matrix example_problem *m const_mx 1).
Proof.
  apply: (@Q_product_self_adjoint _ example_problem _ 0).
  - exact: example_cholesky_valid.
  - exact: example_uses_Cholesky.
  - exact: example_data_symmetric.
  - exact: example_Q_product.
  - exact: example_Q_product.
Defined.

Lemma example_point_block (i : 'I_2) : block i example_point = 1%:M.
Proof.
  by apply/matrixP => a b; rewrite !mxE /= modnMDl modn_small.
Qed.

Lemma example_point_on_manifold : on_manifold example_point.
Proof. by move=> i; rewrite example_point_block trmx1 mulmx1. Qed.

(** The projection at [example_point], applied twice to the all-ones
    matrix. *)
Lemma tangent_space_projection_idempotent_example :
  tangent_space_projection example_problem example_point
    (tangent_space_projection example_problem example_point (const_mx 1))
  = tangent_space_projection example_problem example_point (const_mx 1).
Proof.
  apply: tangent_space_projection_idempotent.
  exact: example_point_on_manifold.
Defined.

(** *** The loop and the QR path on the examples *)

Lemma Pi_product_QR_columns_example :
  Pi_product_QR example_problem 2 (const_mx 1 : 'M_(2, 1))
  = Some (QR_columns example_problem example_QR (const_mx 1)).
Proof.
  by rewrite (Pi_product_QR_columns (const_mx 1) 2 example_QR_installed).
Defined.

Lemma Pi_product_null_QR_example :
  Pi_product example_default 1 (0 : 'M_(0, 1)) = None.
Proof.
  by rewrite (@Pi_product_null_QR _ example_default 1 0 1).
Defined.

Lemma wide_column_count :
  (UINT_MODULUS <= Z.of_nat (Z.to_nat UINT_MODULUS))%ZZ.
Proof. rewrite Z2Nat.id /UINT_MODULUS; lia. Qed.

(** A matrix with 2^32 columns, on a budget of 3 tests. *)
Lemma Pi_product_QR_counter_wraps_example :
  Pi_product_QR example_problem 3 (0 : 'M_(2, Z.to_nat UINT_MODULUS)) = None.
Proof.
  exact: (@Pi_product_QR_counter_wraps _ example_problem _ 0
            wide_column_count 3).
Defined.

Lemma example_QR_Gram :
  Ared_SqrtOmega example_problem_QR *m SqrtOmega_AredT example_problem_QR
  = 2%:M.
Proof. exact: example_Gram. Qed.

Lemma example_qr_cache_valid : qr_cache_valid example_problem_QR example_QR.
Proof.
  split=> [||x] /=.
  - by rewrite trmx_const.
  - by rewrite (example_Gram : const_mx 1 *m _ = _) unitmxE det_scalar1.
  - exact: example_qr_valid.
Qed.

Lemma Pi_product_QR_mode_example :
  Pi_product example_problem_QR 2 (const_mx 1 : 'M_(2, 1))
  = Some (Pi_matrix example_problem_QR *m const_mx 1).
Proof.
  apply: (Pi_product_QR_mode example_qr_cache_valid).
  - by [].
  - by [].
  - by [].
  - by [].
Defined.

Lemma Q_product_QR_mode_example :
  Q_product example_problem_QR 2 (const_mx 1 : 'M_(2 * 2, 1))
  = Some (Q_matrix example_problem_QR *m const_mx 1).
Proof.
  apply: (Q_product_QR_mode example_qr_cache_valid).
  - by [].
  - by [].
  - by [].
  - by [].
Defined.

(** *** The geometry of the projection on the example *)

Lemma example_Pi_product (fuel k : nat) (X : 'M[rat]_(2, k)) :
  Pi_product example_problem fuel X = Some (Pi_matrix example_problem *m X).
Proof.
  by rewrite /Pi_product /= Pi_product_CholeskyE //; exact: example_cholesky_valid.
Qed.

Lemma Pi_product_kernel_range_example :
  (forall (fuel k : nat) (X : 'M[rat]_(2, k)),
      Ared_SqrtOmega example_problem *m X = 0 ->
      Pi_product example_problem fuel X = Some X)
  /\ (forall (fuel k : nat) (Z : 'M[rat]_(1, k)),
      Pi_product example_problem fuel (SqrtOmega_AredT example_problem *m Z)
      = Some 0).
Proof.
  exact: (Pi_product_kernel_range example_cholesky_valid
            example_uses_Cholesky).
Defined.

Lemma Pi_product_pythagoras_example
  (X := const_mx 1 : 'M[rat]_(2, 1)) (PiX := Pi_matrix example_problem *m X) :
  [/\ inner PiX (X - PiX) = 0,
      inner X X = inner PiX PiX + inner (X - PiX) (X - PiX)
    & inner PiX PiX <= inner X X].
Proof.
  apply: (@Pi_product_pythagoras _ example_problem example_cholesky_valid 0).
  - exact: example_uses_Cholesky.
  - exact: example_Pi_product.
Defined.

Lemma Q_product_quadratic_form_example
  (X := 1%:M : 'M[rat]_(2 * 2)) (QX := Q_matrix example_problem *m X) :
  inner X QX
  = inner X (LGrho example_problem *m X)
    + inner (Pi_matrix example_problem *m (SqrtOmega_T example_problem *m X))
            (Pi_matrix example_problem *m (SqrtOmega_T example_problem *m X))
  /\ inner X (LGrho example_problem *m X) <= inner X QX.
Proof.
  apply: (@Q_product_quadratic_form _ example_problem example_cholesky_valid 0).
  - exact: example_uses_Cholesky.
  - exact: example_data_symmetric.
  - exact: example_Q_product.
Defined.

(** *** [data_matrix_product] on the instance with a translation *)

Lemma example_translated_cholesky_valid : cholesky_valid example_translated.
Proof.
  split=> [|k B] /=; first by rewrite trmx_const.
  by rewrite (example_Gram : const_mx 1 *m _ = _) mul_scalar_mx scalerA
             mulfV ?scale1r.
Qed.

Lemma example_translated_qr_cache_valid :
  qr_cache_valid example_translated_QR example_QR.
Proof.
  split=> [||x] /=.
  - by rewrite trmx_const.
  - by rewrite (example_Gram : const_mx 1 *m _ = _) unitmxE det_scalar1.
  - exact: example_qr_valid.
Qed.

Lemma example_LGrho_ones :
  LGrho example_translated *m const_mx 1 = 0 :> 'M_(2 * 2, 1).
Proof.
  apply/matrixP => i j; rewrite !mxE !big_ord_recl big_ord0 !mxE !mulr1 addr0.
  by case: i => [[|[|[|[|//]]]] Hi]; rewrite -!val_eqE /=; apply/eqP.
Qed.

Lemma example_T_ones :
  example_T *m const_mx 1 = delta_mx 0 0 :> 'M_(2, 1).
Proof.
  apply/matrixP => i j; rewrite !mxE !big_ord_recl big_ord0 !mxE !mulr1 !ord1.
  by case: i => [[|[|//]] Hi]; rewrite -!val_eqE /=; apply/eqP.
Qed.

Lemma example_Ared_delta :
  (const_mx 1 : 'M[rat]_(1, 2)) *m delta_mx 0 0 = 1%:M :> 'M_1.
Proof.
  apply/matrixP => i j; rewrite !mxE !big_ord_recl big_ord0 !mxE !ord1 /=.
  by apply/eqP.
Qed.

Lemma example_TT_residual :
  example_T^T *m (delta_mx 0 0 - const_mx 1 *m (2^-1 *: 1%:M))
  = 2^-1 *: delta_mx 0 0 :> 'M_(2 * 2, 1).
Proof.
  apply/matrixP => i j; rewrite !mxE !big_ord_recl !big_ord0 !mxE !ord1.
  rewrite !big_ord_recl !big_ord0 !mxE.
  by case: i => [[|[|[|[|//]]]] Hi]; rewrite -!val_eqE /=; apply/eqP.
Qed.

(** On the all-ones column the Laplacian term vanishes and the
    translational data give (1 0); the projection turns that into
    (1/2 -1/2), so the result is (1/2 0 0 0), where the unprojected data
    would give (1 0 0 0). *)
Example data_matrix_product_translated_value :
  data_matrix_product example_translated 0 (const_mx 1 : 'M[rat]_(2 * 2, 1))
  = Some (2^-1 *: delta_mx 0 0).
Proof.
  rewrite /data_matrix_product /= /Pi_product /= /Pi_product_Cholesky /=.
  rewrite example_LGrho_ones add0r example_T_ones example_Ared_delta.
  by rewrite example_TT_residual.
Qed.

(** Both paths, on the all-ones column: each returns Q * Y, which is
    (1/2 0 0 0). *)
Lemma data_matrix_product_formulation_example :
  data_matrix_product example_translated 0 (const_mx 1 : 'M[rat]_(2 * 2, 1))
  = Some (2^-1 *: delta_mx 0 0)
  /\ data_matrix_product example_translated_QR 2
       (const_mx 1 : 'M[rat]_(2 * 2, 1))
     = Some (2^-1 *: delta_mx 0 0).
Proof.
  have /= /(_ (const_mx 1)) [_ _ chol _] :=
    data_matrix_product_formulation example_translated 0 1.
  have /= /(_ (const_mx 1)) [_ _ _ qr_path] :=
    data_matrix_product_formulation example_translated_QR 2 1.
  have QY : Some (Q_matrix example_translated *m const_mx 1)
            = Some (2^-1 *: delta_mx 0 0 : 'M[rat]_(2 * 2, 1)).
    rewrite -data_matrix_product_translated_value.
    by rewrite chol //; exact: example_translated_cholesky_valid.
  split; first exact: data_matrix_product_translated_value.
  rewrite -QY; apply: (qr_path example_QR) => //.
  exact: example_translated_qr_cache_valid.
Defined.

End ExampleTheory.

End SESync.
